(** * durable-object-counter: the rate-limited counter worker of [src/index.ts]

    A shallow embedding of the worker: the two Durable Object classes
    [Counter] and [Limiter], the rate-limit middleware and the three routes
    of the Hono application, followed by the properties of the design
    document that can be stated over them.

    Modelling conventions.
    - A JavaScript [number] that holds a timestamp, a hit count or a counter
      value is a [Z].  Every such number of the program is built from
      integer literals, [Date.now()], [+], [-], [++] and a power of two with
      a non-negative exponent, so it is an integer.  In the limiter, whose
      times come from [Date.now()] (at most 8.64e15 in absolute value, below
      [2^53]), double arithmetic is exact and is written with the operations
      of [Z].  A counter can hold any integer a caller of [increment] or
      [decrement] gives, so its [+=] and [-=] round as doubles do
      ([to_double]: 53 significant bits, ties to even); sums beyond the
      largest double, which are [Infinity] in JavaScript, are outside the
      embedding.  The one quotient, [millisecondsToNextRequest / 1000], is
      kept as the exact rational.
    - A Durable Object namespace ([c.env.LIMITER], [c.env.COUNTER]) is a
      finite map from the object's name to its state; an object that was
      never touched has the state its constructor (or an empty storage)
      gives.
    - A computation is a function from the state of the world to a result
      and a new state.  [Date.now()] reads the next value of a clock that
      the environment provides.  [app_fetch] runs one request from the
      rate-limit middleware on with nothing else in between; [step] and
      [run] split a request at its [await]s, so that the calls of several
      requests in flight can be scheduled in any order.
    - The [cors] middleware of lines 6-15 is the framework's: it answers an
      [OPTIONS] request itself and hands every other request on.  The
      embedding starts where such a request reaches the rate-limit
      middleware.
    - The world carries a ghost [trace] of the clock readings and of the
      calls made on Durable Object stubs, in the order they happen. *)

From Stdlib Require Import ZArith QArith Lia List.
From stdpp Require Import gmap strings.

Local Open Scope Z_scope.

(** ** Constants (lines 83-88) *)

Definition BASE_WAIT_TIME : Z := 500.
Definition MAX_WAIT_TIME : Z := 30000.
Definition GRACE_PERIOD : Z := 3000.

(** ** State of the world *)

(** The private fields of one [Limiter] object. *)
Record LimiterFields : Type := mkLimiter {
  nextAllowedTime : Z;
  consecutiveHits : Z
}.

(** Calls on Durable Object stubs and clock readings, as they are observed. *)
Inductive Event : Type :=
| EvDateNow (t : Z)
| EvCheckRateLimit (id : string)
| EvRecordRequest (id : string)
| EvGetCounterValue (id : string)
| EvIncrement (id : string)
| EvDecrement (id : string).

Record World : Type := mkWorld {
  clock : nat -> Z;                        (* the k-th value [Date.now()] returns *)
  ticks : nat;                             (* how many readings were taken *)
  LIMITER : gmap string LimiterFields;     (* c.env.LIMITER, by name *)
  COUNTER : gmap string (gmap string Z);   (* c.env.COUNTER, by name: ctx.storage *)
  trace : list Event
}.

(** ** Computations over the world *)

Definition M (A : Type) : Type := World -> A * World.

Definition ret {A} (a : A) : M A := fun w => (a, w).

Definition bind {A B} (m : M A) (k : A -> M B) : M B :=
  fun w => let (a, w') := m w in k a w'.

Notation "'let*' x ':=' m 'in' k" := (bind m (fun x => k))
  (at level 10, x name, m at level 100, k at level 200).
Notation "m ';;;' k" := (bind m (fun _ => k))
  (at level 100, k at level 200, right associativity).

Definition emit (e : Event) : M unit :=
  fun w => (tt, mkWorld (clock w) (ticks w) (LIMITER w) (COUNTER w) (trace w ++ [e])).

(** [Date.now()] *)
Definition Date_now : M Z :=
  fun w =>
    let t := clock w (ticks w) in
    (t, mkWorld (clock w) (S (ticks w)) (LIMITER w) (COUNTER w) (trace w ++ [EvDateNow t])).

(** ** class Limiter (lines 90-125) *)

(** The constructor (lines 94-98). *)
Definition Limiter_constructor : LimiterFields :=
  {| nextAllowedTime := 0; consecutiveHits := 0 |}.

(** The object a name resolves to: the live instance, or a new one. *)
Definition limiter_of (w : World) (this : string) : LimiterFields :=
  default Limiter_constructor (LIMITER w !! this).

Definition set_limiter (this : string) (l : LimiterFields) : M unit :=
  fun w => (tt, mkWorld (clock w) (ticks w) (<[this := l]> (LIMITER w)) (COUNTER w) (trace w)).

(** Reads and writes of [this.nextAllowedTime] and [this.consecutiveHits]. *)
Definition get_nextAllowedTime (this : string) : M Z :=
  fun w => (nextAllowedTime (limiter_of w this), w).

Definition get_consecutiveHits (this : string) : M Z :=
  fun w => (consecutiveHits (limiter_of w this), w).

Definition set_nextAllowedTime (this : string) (v : Z) : M unit :=
  fun w => set_limiter this (mkLimiter v (consecutiveHits (limiter_of w this))) w.

Definition set_consecutiveHits (this : string) (v : Z) : M unit :=
  fun w => set_limiter this (mkLimiter (nextAllowedTime (limiter_of w this)) v) w.

(** [checkRateLimit] (lines 100-108). *)
Definition checkRateLimit (this : string) : M Z :=
  let* now := Date_now in
  let* nat_ := get_nextAllowedTime this in
  if now >=? nat_ then ret 0
  else ret (Z.max 0 (nat_ - now - GRACE_PERIOD)).

(** The [waitTime] of lines 118-121, for the value of
    [this.consecutiveHits] after the increment of line 117.  That value is
    at least 1 when the count was not negative, so the exponent is not
    negative and [2 ^ _] is the power of JavaScript. *)
Definition waitTime (consecutiveHits : Z) : Z :=
  Z.min (BASE_WAIT_TIME * 2 ^ (consecutiveHits - 1)) MAX_WAIT_TIME.

(** [recordRequest] (lines 110-124). *)
Definition recordRequest (this : string) : M unit :=
  let* now := Date_now in
  let* nat_ := get_nextAllowedTime this in
  if now >=? nat_ then
    set_consecutiveHits this 0 ;;;
    set_nextAllowedTime this (now + BASE_WAIT_TIME)
  else
    let* h := get_consecutiveHits this in
    set_consecutiveHits this (h + 1) ;;;
    let* h' := get_consecutiveHits this in
    let waitTime := waitTime h' in
    let* nat' := get_nextAllowedTime this in
    set_nextAllowedTime this (Z.max nat' (now + waitTime)).

(** ** class Counter (lines 62-81) *)

(** [this.ctx.storage.get<number>(key)] and [this.ctx.storage.put(key, v)]. *)
Definition storage_get (this key : string) : M (option Z) :=
  fun w => (default ∅ (COUNTER w !! this) !! key, w).

Definition storage_put (this key : string) (v : Z) : M unit :=
  fun w =>
    (tt, mkWorld (clock w) (ticks w) (LIMITER w)
           (<[this := <[key := v]> (default ∅ (COUNTER w !! this))]> (COUNTER w))
           (trace w)).

(** The double nearest to an integer: integers up to [2^53] in absolute
    value are doubles; a larger one keeps its 53 leading bits, rounded to
    the nearest, to the even one on a tie. *)
Definition to_double (z : Z) : Z :=
  let a := Z.abs z in
  if a <? 2 ^ 53 then z
  else
    let e := Z.log2 a - 52 in
    let q := a / 2 ^ e in
    let r := a mod 2 ^ e in
    let half := 2 ^ (e - 1) in
    let q' := if r <? half then q
              else if half <? r then q + 1
              else if Z.even q then q else q + 1 in
    Z.sgn z * (q' * 2 ^ e).

(** [x + y] and [x - y] on numbers. *)
Definition js_add (x y : Z) : Z := to_double (x + y).
Definition js_sub (x y : Z) : Z := to_double (x - y).

(** [x || 0] on the result of a storage read: [undefined] and [0] are falsy. *)
Definition or_zero (x : option Z) : Z :=
  match x with
  | Some v => if v =? 0 then 0 else v
  | None => 0
  end.

(** A parameter with the default value [1]. *)
Definition amount_or_default (amount : option Z) : Z := default 1 amount.

Definition getCounterValue (this : string) : M Z :=
  let* v := storage_get this "value" in
  let value := or_zero v in
  ret value.

Definition increment (this : string) (amount : option Z) : M Z :=
  let amount := amount_or_default amount in
  let* v := storage_get this "value" in
  let value := or_zero v in
  let value := js_add value amount in
  storage_put this "value" value ;;;
  ret value.

Definition decrement (this : string) (amount : option Z) : M Z :=
  let amount := amount_or_default amount in
  let* v := storage_get this "value" in
  let value := or_zero v in
  let value := js_sub value amount in
  storage_put this "value" value ;;;
  ret value.

(** ** The application (lines 17-60) *)

Inductive Method : Type := GET | POST | OtherMethod.

(** What the handlers read of a request: the method, the path split at its
    slashes, and the headers. *)
Record Request : Type := mkRequest {
  method : Method;
  path : list string;
  headers : gmap string string
}.

(** The JSON bodies of the program are flat objects of numbers and strings. *)
Inductive JValue : Type :=
| JNumber (q : Q)
| JString (s : string).

Inductive Json : Type :=
| JObject (fields : list (string * JValue)).

Inductive Body : Type :=
| BJson (j : Json)
| BText (s : string).

Record Response : Type := mkResponse {
  status : Z;
  body : Body
}.

(** [c.json(obj)] and [c.json(obj, status)]. *)
Definition c_json (j : Json) (st : option Z) : Response :=
  {| status := default 200 st; body := BJson j |}.

(** [s || "global"] on a header: a missing and an empty header are falsy. *)
Definition or_global (h : option string) : string :=
  match h with
  | Some s => if String.eqb s "" then "global" else s
  | None => "global"
  end.

(** The name of the limiter a request is charged to (line 18). *)
Definition ip_of (c : Request) : string :=
  or_global (headers c !! "CF-Connecting-IP").

(** Calls through a Durable Object stub. *)
Definition limiterStub_checkRateLimit (id : string) : M Z :=
  emit (EvCheckRateLimit id) ;;; checkRateLimit id.

Definition limiterStub_recordRequest (id : string) : M unit :=
  emit (EvRecordRequest id) ;;; recordRequest id.

Definition obj_getCounterValue (id : string) : M Z :=
  emit (EvGetCounterValue id) ;;; getCounterValue id.

Definition obj_increment (id : string) : M Z :=
  emit (EvIncrement id) ;;; increment id None.

Definition obj_decrement (id : string) : M Z :=
  emit (EvDecrement id) ;;; decrement id None.

(** [x / 1000] on a number of milliseconds. *)
Definition div_1000 (x : Z) : Q := Qmake x 1000.

(** The rate-limit middleware (lines 17-36); [next] is the rest of the chain. *)
Definition rateLimit (c : Request) (next : M Response) : M Response :=
  let ip := ip_of c in
  let* millisecondsToNextRequest := limiterStub_checkRateLimit ip in
  if millisecondsToNextRequest >? 0 then
    ret (c_json
           (JObject [("error", JString "Rate limit exceeded");
                     ("retryAfter", JNumber (div_1000 millisecondsToNextRequest))])
           (Some 429))
  else
    limiterStub_recordRequest ip ;;;
    next.

Definition value_json (value : Z) : Json :=
  JObject [("value", JNumber (inject_Z value))].

(** The three routes (lines 38-60), and the framework's answer when none
    matches. *)
Definition routes (c : Request) : M Response :=
  match method c, path c with
  | GET, [name; last] =>
      if String.eqb last "value" then
        let* value := obj_getCounterValue name in
        ret (c_json (value_json value) None)
      else ret {| status := 404; body := BText "404 Not Found" |}
  | POST, [name; last] =>
      if String.eqb last "increment" then
        let* value := obj_increment name in
        ret (c_json (value_json value) None)
      else if String.eqb last "decrement" then
        let* value := obj_decrement name in
        ret (c_json (value_json value) None)
      else ret {| status := 404; body := BText "404 Not Found" |}
  | _, _ => ret {| status := 404; body := BText "404 Not Found" |}
  end.

(** A request, from the rate-limit middleware on. *)
Definition app_fetch (c : Request) : M Response := rateLimit c (routes c).

(** *** Requests in flight

    The middleware awaits twice before it calls [next] (lines 22 and 34),
    and a route awaits its one call on the counter: between two awaits of a
    request, steps of other requests can run.  A request in flight is at one
    of these points. *)
Inductive Stage : Type :=
| AtCheck (c : Request)      (* before [limiterStub.checkRateLimit()], line 22 *)
| AtRecord (c : Request)     (* before [limiterStub.recordRequest()], line 34 *)
| AtNext (c : Request)       (* before [next()], line 35 *)
| Finished (r : Response).

(** One step of a request: the code up to its next await. *)
Definition step (s : Stage) : M Stage :=
  match s with
  | AtCheck c =>
      let* millisecondsToNextRequest := limiterStub_checkRateLimit (ip_of c) in
      if millisecondsToNextRequest >? 0 then
        ret (Finished
               (c_json
                  (JObject [("error", JString "Rate limit exceeded");
                            ("retryAfter",
                             JNumber (div_1000 millisecondsToNextRequest))])
                  (Some 429)))
      else ret (AtRecord c)
  | AtRecord c => limiterStub_recordRequest (ip_of c) ;;; ret (AtNext c)
  | AtNext c => let* r := routes c in ret (Finished r)
  | Finished r => ret (Finished r)
  end.

(** The requests in flight, and a schedule: which request takes the next
    step. *)
Definition step_at (i : nat) (pool : list Stage) : M (list Stage) :=
  match pool !! i with
  | Some s => let* s' := step s in ret (<[i := s']> pool)
  | None => ret pool
  end.

Fixpoint run (schedule : list nat) (pool : list Stage) : M (list Stage) :=
  match schedule with
  | [] => ret pool
  | i :: schedule' => let* pool' := step_at i pool in run schedule' pool'
  end.

(** The limiter and the counter a request in flight can still touch. *)
Definition stage_ip (s : Stage) : option string :=
  match s with
  | AtCheck c | AtRecord c => Some (ip_of c)
  | AtNext _ | Finished _ => None
  end.

Definition stage_name (s : Stage) : option string :=
  match s with
  | AtCheck c | AtRecord c | AtNext c => head (path c)
  | Finished _ => None
  end.

(** The statuses of the requests that are finished. *)
Definition statuses (pool : list Stage) : list (option Z) :=
  map (fun s => match s with Finished r => Some (status r) | _ => None end) pool.

(** The world before any request, for a given clock. *)
Definition fresh (clk : nat -> Z) : World :=
  {| clock := clk; ticks := 0; LIMITER := ∅; COUNTER := ∅; trace := [] |}.

(** Number of [recordRequest] calls on limiter [id] in a trace. *)
Definition is_record (id : string) (e : Event) : bool :=
  match e with
  | EvRecordRequest id' => String.eqb id id'
  | _ => false
  end.

Definition record_calls (id : string) (tr : list Event) : nat :=
  length (List.filter (is_record id) tr).

(** The clock readings of a trace, in order. *)
Definition clock_samples (tr : list Event) : list Z :=
  flat_map (fun e => match e with EvDateNow t => [t] | _ => [] end) tr.

(** The world once [Date.now()] has been read. *)
Definition ticked (w : World) : World :=
  mkWorld (clock w) (S (ticks w)) (LIMITER w) (COUNTER w)
          (trace w ++ [EvDateNow (clock w (ticks w))]).

(** The fields of a limiter after [recordRequest] read the time [now]; the
    closed form of the method, proved equal to it in [recordRequest_run]. *)
Definition recorded (now : Z) (l : LimiterFields) : LimiterFields :=
  if now >=? nextAllowedTime l then
    {| nextAllowedTime := now + BASE_WAIT_TIME; consecutiveHits := 0 |}
  else
    {| nextAllowedTime :=
         Z.max (nextAllowedTime l) (now + waitTime (consecutiveHits l + 1));
       consecutiveHits := consecutiveHits l + 1 |}.

(** The events a computation adds to the trace. *)
Definition trace_of {A} (m : M A) (w : World) : list Event :=
  drop (length (trace w)) (trace (snd (m w))).

(** What a route adds to the trace: counter calls only. *)
Definition route_events (tr : list Event) : Prop :=
  forall id, record_calls id tr = 0%nat /\ clock_samples tr = [].

(** All the readings of a list are one and the same timestamp. *)
Definition same_now (samples : list Z) : Prop :=
  forall t t', In t samples -> In t' samples -> t = t'.

(** ** Scenarios *)

(** [n] requests [c], one after the other. *)
Fixpoint serve (n : nat) (c : Request) (w : World) : World :=
  match n with
  | O => w
  | S k => serve k c (snd (app_fetch c w))
  end.

(** [POST /a/increment] without a [CF-Connecting-IP] header. *)
Definition post_increment_a : Request :=
  {| method := POST; path := ["a"; "increment"]; headers := ∅ |}.

(** A clock that advances by one millisecond between two readings. *)
Definition clock_1ms : nat -> Z := fun k => Z.of_nat k.

(** Five requests in ten milliseconds, all let through by the grace period:
    the limiter "global" then has [nextAllowedTime = 4009] and
    [consecutiveHits = 4], and the next reading of the clock is 10. *)
Definition burst5 : World := serve 5 post_increment_a (fresh clock_1ms).

(** A clock that reads 0, 500, 999, 1000, and 2000 from then on. *)
Definition clock_skew : nat -> Z := fun k => nth k [0; 500; 999; 1000] 2000.

(** One request served on that clock: the limiter "global" has
    [nextAllowedTime = 1000], and the next two readings are 999 and 1000. *)
Definition skew1 : World := serve 1 post_increment_a (fresh clock_skew).

(** Four requests in eight milliseconds: the limiter "global" has
    [nextAllowedTime = 2007] and [consecutiveHits = 3]. *)
Definition burst4 : World := serve 4 post_increment_a (fresh clock_1ms).

(** A counter "big" that a caller of [increment(2 ** 53)] brought to
    [2^53]. *)
Definition counter_at_2_53 : World :=
  snd (increment "big" (Some (2 ^ 53)) (fresh clock_1ms)).

(** A sequence of requests, served one after the other. *)
Fixpoint serve_all (cs : list Request) (w : World) : World :=
  match cs with
  | [] => w
  | c :: cs' => serve_all cs' (snd (app_fetch c w))
  end.

(** A clock that starts at a time that is not negative and never runs
    backward. *)
Definition clock_forward (clk : nat -> Z) : Prop :=
  0 <= clk 0%nat /\ forall k, clk k <= clk (S k).

(** The burst of [burst5], after which the client stays away: the readings
    are 0 to 10 ms, and 11 s, 12 s, ... from then on. *)
Definition clock_burst_then_wait : nat -> Z :=
  fun k => if (k <=? 10)%nat then Z.of_nat k else 1000 * Z.of_nat k.

Definition burst5_then_wait : World :=
  serve 5 post_increment_a (fresh clock_burst_then_wait).

(** [GET /a/value] and [POST /b/decrement] from the address 203.0.113.7. *)
Definition get_value_a : Request :=
  {| method := GET; path := ["a"; "value"]; headers := ∅ |}.

Definition post_decrement_b_from_ip : Request :=
  {| method := POST; path := ["b"; "decrement"];
     headers := {[ "CF-Connecting-IP" := "203.0.113.7" ]} |}.

(** The client of [burst5_then_wait] was answered with 429 at 10 ms; its next
    request, at 11 s, is let through. *)
Definition back_after_wait : World :=
  snd (app_fetch post_increment_a burst5_then_wait).

(** Two requests [POST /a/increment] of the same address, both about to be
    checked. *)
Definition two_in_flight : list Stage :=
  [AtCheck post_increment_a; AtCheck post_increment_a].

(** The first request entirely before the second, the second entirely before
    the first, and the two taking their steps in turn. *)
Definition first_then_second : list nat := [0; 0; 0; 1; 1; 1]%nat.
Definition second_then_first : list nat := [1; 1; 1; 0; 0; 0]%nat.
Definition in_turn : list nat := [0; 1; 0; 1; 0; 1]%nat.

(** [back_after_wait] once the limiter "global" was checked and a request of
    another address was served before the record. *)
Definition checked_then_other : World :=
  snd (app_fetch post_decrement_b_from_ip
         (snd (limiterStub_checkRateLimit "global" back_after_wait))).

(** An invariant of the limiters, kept by every request. *)
Definition limiters_ok (w : World) : Prop :=
  forall id, 0 <= consecutiveHits (limiter_of w id)
             /\ 0 <= nextAllowedTime (limiter_of w id).

(** The boundaries are at most 30 s after the next reading of the clock. *)
Definition within_30s (w : World) : Prop :=
  forall id, nextAllowedTime (limiter_of w id) <= clock w (ticks w) + 30000.

(** * Properties *)

(** ** The methods, run on a world *)

Lemma limiter_of_insert (w : World) (this : string) (l : LimiterFields) (tk : nat) tr :
  limiter_of (mkWorld (clock w) tk (<[this := l]> (LIMITER w)) (COUNTER w) tr) this = l.
Proof. unfold limiter_of; simpl. by rewrite lookup_insert_eq. Qed.

Lemma limiter_of_insert_ne (w : World) (this id : string) (l : LimiterFields) (tk : nat) tr :
  this ≠ id ->
  limiter_of (mkWorld (clock w) tk (<[this := l]> (LIMITER w)) (COUNTER w) tr) id
  = limiter_of w id.
Proof. intros Hne. unfold limiter_of; simpl. by rewrite lookup_insert_ne. Qed.

Lemma checkRateLimit_run (this : string) (w : World) :
  checkRateLimit this w =
    (let now := clock w (ticks w) in
     let nat_ := nextAllowedTime (limiter_of w this) in
     if now >=? nat_ then 0 else Z.max 0 (nat_ - now - GRACE_PERIOD),
     ticked w).
Proof.
  unfold checkRateLimit, bind, Date_now, get_nextAllowedTime, ret, ticked; simpl.
  unfold limiter_of; simpl.
  by destruct (_ >=? _).
Qed.

Lemma recordRequest_run (this : string) (w : World) :
  recordRequest this w =
    (tt,
     mkWorld (clock w) (S (ticks w))
             (<[this := recorded (clock w (ticks w)) (limiter_of w this)]> (LIMITER w))
             (COUNTER w)
             (trace w ++ [EvDateNow (clock w (ticks w))])).
Proof.
  unfold recordRequest, recorded, bind, Date_now, get_nextAllowedTime,
    get_consecutiveHits, set_consecutiveHits, set_nextAllowedTime, set_limiter, ret.
  simpl. unfold limiter_of; simpl.
  destruct (_ >=? _); simpl; rewrite !lookup_insert_eq; simpl;
    by rewrite insert_insert_eq.
Qed.

Lemma checkRateLimit_nonneg (this : string) (w : World) :
  0 <= fst (checkRateLimit this w).
Proof. rewrite checkRateLimit_run; simpl. destruct (_ >=? _); lia. Qed.

Lemma limiterStub_checkRateLimit_run (id : string) (w : World) :
  limiterStub_checkRateLimit id w =
    (let now := clock w (ticks w) in
     let nat_ := nextAllowedTime (limiter_of w id) in
     if now >=? nat_ then 0 else Z.max 0 (nat_ - now - GRACE_PERIOD),
     mkWorld (clock w) (S (ticks w)) (LIMITER w) (COUNTER w)
             (trace w ++ [EvCheckRateLimit id; EvDateNow (clock w (ticks w))])).
Proof.
  unfold limiterStub_checkRateLimit, bind, emit.
  rewrite checkRateLimit_run. unfold ticked, limiter_of; simpl.
  by rewrite <- app_assoc.
Qed.

Lemma limiterStub_recordRequest_run (id : string) (w : World) :
  limiterStub_recordRequest id w =
    (tt,
     mkWorld (clock w) (S (ticks w))
             (<[id := recorded (clock w (ticks w)) (limiter_of w id)]> (LIMITER w))
             (COUNTER w)
             (trace w ++ [EvRecordRequest id; EvDateNow (clock w (ticks w))])).
Proof.
  unfold limiterStub_recordRequest, bind, emit.
  rewrite recordRequest_run. unfold limiter_of; simpl.
  by rewrite <- app_assoc.
Qed.

(** Case analysis on the test [now >= this.nextAllowedTime]. *)
Ltac case_geb :=
  match goal with
  | |- context [ ?a >=? ?b ] =>
      let E := fresh "Hcmp" in
      destruct (a >=? b) eqn:E;
      [ apply Z.geb_le in E | rewrite Z.geb_leb in E; apply Z.leb_gt in E ]
  end.

(** ** The limiter *)

(** The wait doubles with each hit and stops at the maximum. *)
Example waitTime_1 : waitTime 1 = 500.
Proof. reflexivity. Qed.

Example waitTime_2 : waitTime 2 = 1000.
Proof. reflexivity. Qed.

Example waitTime_3 : waitTime 3 = 2000.
Proof. reflexivity. Qed.

Example waitTime_6 : waitTime 6 = 16000.
Proof. reflexivity. Qed.

Example waitTime_7 : waitTime 7 = 30000.
Proof. reflexivity. Qed.

(** The hit count of a limiter is never negative: it is so in a new object
    and [recordRequest] keeps it so. *)
Lemma constructor_hits_nonneg : 0 <= consecutiveHits Limiter_constructor.
Proof. simpl. lia. Qed.

Lemma recorded_hits_nonneg (now : Z) (l : LimiterFields) :
  0 <= consecutiveHits l -> 0 <= consecutiveHits (recorded now l).
Proof. intros H. unfold recorded. destruct (_ >=? _); simpl; lia. Qed.

Lemma recordRequest_hits_nonneg (this id : string) (w : World) :
  0 <= consecutiveHits (limiter_of w id) ->
  0 <= consecutiveHits (limiter_of (snd (recordRequest this w)) id).
Proof.
  intros H. rewrite recordRequest_run; simpl.
  destruct (decide (this = id)) as [->|Hne].
  - rewrite limiter_of_insert. by apply recorded_hits_nonneg.
  - by rewrite limiter_of_insert_ne.
Qed.

(** C2. For every limiter and every time [now] that [Date.now()] returns,
    [checkRateLimit] returns 0 when [now >= nextAllowedTime] and otherwise
    [max(0, nextAllowedTime - now - 3000)]; and there is a state in which
    the returned wait is 0 although [now < nextAllowedTime]. *)
Theorem checkRateLimit_result :
  (forall (this : string) (w : World),
      fst (checkRateLimit this w) =
        if clock w (ticks w) >=? nextAllowedTime (limiter_of w this) then 0
        else Z.max 0 (nextAllowedTime (limiter_of w this) - clock w (ticks w) - 3000))
  /\ GRACE_PERIOD = 3000
  /\ (exists (this : string) (w : World),
        clock w (ticks w) < nextAllowedTime (limiter_of w this)
        /\ fst (checkRateLimit this w) = 0).
Proof.
  split; [| split].
  - intros this w. by rewrite checkRateLimit_run.
  - reflexivity.
  - exists "global",
      (mkWorld (fun _ => 100) 0 {[ "global" := mkLimiter 500 0 ]} ∅ []).
    split; [vm_compute; reflexivity | vm_compute; reflexivity].
Qed.

(** C3. For every limiter (with a hit count that is not negative) and every
    time [now], [recordRequest] sets [consecutiveHits] to 0 and
    [nextAllowedTime] to [now + 500] when [now >= nextAllowedTime];
    otherwise it increments [consecutiveHits], takes
    [waitTime = min(500 * 2^(consecutiveHits - 1), 30000)] with the
    incremented count, and sets [nextAllowedTime] to
    [max(nextAllowedTime, now + waitTime)]. *)
Theorem recordRequest_update (this : string) (w : World) :
  0 <= consecutiveHits (limiter_of w this) ->
  limiter_of (snd (recordRequest this w)) this =
    if clock w (ticks w) >=? nextAllowedTime (limiter_of w this) then
      {| nextAllowedTime := clock w (ticks w) + 500; consecutiveHits := 0 |}
    else
      {| nextAllowedTime :=
           Z.max (nextAllowedTime (limiter_of w this))
                 (clock w (ticks w)
                  + Z.min (500 * 2 ^ ((consecutiveHits (limiter_of w this) + 1) - 1))
                          30000);
         consecutiveHits := consecutiveHits (limiter_of w this) + 1 |}.
Proof.
  intros _. rewrite recordRequest_run; simpl.
  rewrite limiter_of_insert. reflexivity.
Qed.

(** C4. For every limiter and every time [now], [nextAllowedTime] after
    [recordRequest] is at least its value before, in the open and in the
    penalized branch (and for the limiters the call does not touch). *)
Theorem recordRequest_never_retreats (this id : string) (w : World) :
  nextAllowedTime (limiter_of w id)
  <= nextAllowedTime (limiter_of (snd (recordRequest this w)) id).
Proof.
  rewrite recordRequest_run; simpl.
  destruct (decide (this = id)) as [->|Hne].
  - rewrite limiter_of_insert. unfold recorded, BASE_WAIT_TIME.
    case_geb; simpl; lia.
  - rewrite limiter_of_insert_ne by done. lia.
Qed.

(** C5. For every hit count that is not negative, the [waitTime] of the
    penalized branch, [min(500 * 2^(consecutiveHits - 1), 30000)], is at
    most 30000. *)
Theorem waitTime_capped (consecutiveHits : Z) :
  0 <= consecutiveHits ->
  waitTime consecutiveHits = Z.min (500 * 2 ^ (consecutiveHits - 1)) 30000
  /\ waitTime consecutiveHits <= 30000.
Proof.
  intros _. split; [reflexivity |].
  unfold waitTime, MAX_WAIT_TIME. apply Z.le_min_r.
Qed.

(** C10. [checkRateLimit] is a pure read of the limiter: the fields of every
    limiter, [nextAllowedTime] and [consecutiveHits], are the same after the
    call as before. *)
Theorem checkRateLimit_reads_only (this id : string) (w : World) :
  LIMITER (snd (checkRateLimit this w)) = LIMITER w
  /\ nextAllowedTime (limiter_of (snd (checkRateLimit this w)) id)
     = nextAllowedTime (limiter_of w id)
  /\ consecutiveHits (limiter_of (snd (checkRateLimit this w)) id)
     = consecutiveHits (limiter_of w id).
Proof. rewrite checkRateLimit_run. by unfold limiter_of, ticked. Qed.

Example burst5_limiter :
  limiter_of burst5 "global" = {| nextAllowedTime := 4009; consecutiveHits := 4 |}
  /\ clock burst5 (ticks burst5) = 10.
Proof. split; vm_compute; reflexivity. Qed.

Example skew1_limiter :
  limiter_of skew1 "global" = {| nextAllowedTime := 1000; consecutiveHits := 0 |}
  /\ clock skew1 (ticks skew1) = 999
  /\ clock skew1 (S (ticks skew1)) = 1000.
Proof. repeat split; vm_compute; reflexivity. Qed.

(** C3 at [burst5]: the fifth hit waits 8000 ms from the reading 10. *)
Lemma recordRequest_update_witness :
  0 <= consecutiveHits (limiter_of burst5 "global")
  /\ limiter_of (snd (recordRequest "global" burst5)) "global"
     = {| nextAllowedTime := 8010; consecutiveHits := 5 |}.
Proof.
  assert (H : 0 <= consecutiveHits (limiter_of burst5 "global"))
    by (vm_compute; discriminate).
  split; [exact H |].
  rewrite (recordRequest_update "global" burst5 H).
  vm_compute. reflexivity.
Defined.

(** C5 at the seventh hit, where the cap applies. *)
Lemma waitTime_capped_witness :
  0 <= 7
  /\ waitTime 7 = Z.min (500 * 2 ^ (7 - 1)) 30000
  /\ waitTime 7 <= 30000.
Proof. split; [lia | apply (waitTime_capped 7); lia]. Defined.

(** ** The counter *)

Lemma or_zero_Some (v : Z) : or_zero (Some v) = v.
Proof. simpl. destruct (Z.eqb_spec v 0); congruence. Qed.

Lemma storage_get_put (this key : string) (v : Z) (w : World) :
  fst (storage_get this key (snd (storage_put this key v w))) = Some v.
Proof.
  unfold storage_get, storage_put; simpl.
  rewrite lookup_insert_eq; simpl. by rewrite lookup_insert_eq.
Qed.

Lemma to_double_exact (z : Z) : - 2 ^ 53 <= z <= 2 ^ 53 -> to_double z = z.
Proof.
  intros H. unfold to_double.
  destruct (Z.ltb_spec (Z.abs z) (2 ^ 53)) as [|Hge]; [reflexivity |].
  assert (z = 2 ^ 53 \/ z = - 2 ^ 53) as [-> | ->] by lia; reflexivity.
Qed.

Lemma increment_run (this : string) (amount : option Z) (w : World) :
  increment this amount w =
    (js_add (or_zero (fst (storage_get this "value" w))) (amount_or_default amount),
     snd (storage_put this "value"
            (js_add (or_zero (fst (storage_get this "value" w)))
                    (amount_or_default amount)) w)).
Proof. reflexivity. Qed.

Lemma decrement_run (this : string) (amount : option Z) (w : World) :
  decrement this amount w =
    (js_sub (or_zero (fst (storage_get this "value" w))) (amount_or_default amount),
     snd (storage_put this "value"
            (js_sub (or_zero (fst (storage_get this "value" w)))
                    (amount_or_default amount)) w)).
Proof. reflexivity. Qed.

Lemma getCounterValue_run (this : string) (w : World) :
  getCounterValue this w = (or_zero (fst (storage_get this "value" w)), w).
Proof. reflexivity. Qed.

(** The value a counter reads after an [increment] and a [decrement], in
    either order. *)
Lemma value_after_increment_decrement (this : string) (a b : option Z) (w : World) :
  fst (getCounterValue this (snd (decrement this b (snd (increment this a w)))))
  = js_sub (js_add (fst (getCounterValue this w)) (amount_or_default a))
           (amount_or_default b).
Proof.
  rewrite decrement_run, increment_run, !getCounterValue_run; cbn [fst snd].
  by rewrite !storage_get_put, !or_zero_Some.
Qed.

Lemma value_after_decrement_increment (this : string) (a b : option Z) (w : World) :
  fst (getCounterValue this (snd (increment this b (snd (decrement this a w)))))
  = js_add (js_sub (fst (getCounterValue this w)) (amount_or_default a))
           (amount_or_default b).
Proof.
  rewrite decrement_run, increment_run, !getCounterValue_run; cbn [fst snd].
  by rewrite !storage_get_put, !or_zero_Some.
Qed.

(** C8, as amended. For every counter that holds a value [v] with
    [-2^53 <= v < 2^53] (0 when it was never written), [increment(1)]
    followed by [decrement(1)] leaves the value of the counter as it was:
    [increment] returns [v + 1], [decrement] returns [v], a later
    [getCounterValue] reads [v], and [v] is what the storage holds. *)
Theorem increment_then_decrement (this : string) (w : World) :
  - 2 ^ 53 <= fst (getCounterValue this w) < 2 ^ 53 ->
  fst (increment this (Some 1) w) = fst (getCounterValue this w) + 1
  /\ fst (decrement this (Some 1) (snd (increment this (Some 1) w)))
     = fst (getCounterValue this w)
  /\ fst (getCounterValue this
            (snd (decrement this (Some 1) (snd (increment this (Some 1) w)))))
     = fst (getCounterValue this w)
  /\ fst (storage_get this "value"
            (snd (decrement this (Some 1) (snd (increment this (Some 1) w)))))
     = Some (fst (getCounterValue this w)).
Proof.
  intros Hv.
  rewrite value_after_increment_decrement.
  rewrite decrement_run, increment_run, !getCounterValue_run in *; cbn [fst snd] in *.
  rewrite !storage_get_put, !or_zero_Some.
  set (v := or_zero (fst (storage_get this "value" w))) in *.
  change (amount_or_default (Some 1)) with 1. unfold js_sub, js_add.
  rewrite (to_double_exact (v + 1)) by lia.
  rewrite (to_double_exact (v + 1 - 1)) by lia.
  replace (v + 1 - 1) with v by lia. done.
Qed.

(** C8 on the counter "a" of [burst5], which holds 5. *)
Lemma increment_then_decrement_witness :
  - 2 ^ 53 <= fst (getCounterValue "a" burst5) < 2 ^ 53
  /\ fst (increment "a" (Some 1) burst5) = fst (getCounterValue "a" burst5) + 1
  /\ fst (getCounterValue "a"
            (snd (decrement "a" (Some 1) (snd (increment "a" (Some 1) burst5)))))
     = fst (getCounterValue "a" burst5).
Proof.
  assert (H : - 2 ^ 53 <= fst (getCounterValue "a" burst5) < 2 ^ 53)
    by (vm_compute; split; discriminate || reflexivity).
  destruct (increment_then_decrement "a" burst5 H) as (E1 & _ & E3 & _).
  split; [exact H |]. split; [exact E1 | exact E3].
Defined.

(** C8, as stated, fails on a counter that holds [2^53]: [2^53 + 1] is not
    a double, so [increment(1)] returns and stores [2^53] again, and
    [decrement(1)] then leaves [2^53 - 1]. *)
Lemma increment_then_decrement_loses_one_at_2_53 :
  fst (getCounterValue "big" counter_at_2_53) = 2 ^ 53
  /\ fst (increment "big" (Some 1) counter_at_2_53) = 2 ^ 53
  /\ fst (decrement "big" (Some 1) (snd (increment "big" (Some 1) counter_at_2_53)))
     = 2 ^ 53 - 1
  /\ fst (getCounterValue "big"
            (snd (decrement "big" (Some 1)
                    (snd (increment "big" (Some 1) counter_at_2_53)))))
     <> fst (getCounterValue "big" counter_at_2_53).
Proof.
  repeat split; try (vm_compute; reflexivity).
  vm_compute. discriminate.
Qed.

(** The pair touches no other counter and no limiter. *)
Lemma increment_frame (this id : string) (amount : option Z) (w : World) :
  this ≠ id ->
  COUNTER (snd (increment this amount w)) !! id = COUNTER w !! id
  /\ LIMITER (snd (increment this amount w)) = LIMITER w.
Proof.
  intros Hne. rewrite increment_run. unfold storage_put; simpl.
  by rewrite lookup_insert_ne.
Qed.

(** ** The rate-limit middleware and the routes *)

Lemma record_calls_app (id : string) (tr1 tr2 : list Event) :
  record_calls id (tr1 ++ tr2) = (record_calls id tr1 + record_calls id tr2)%nat.
Proof. unfold record_calls. by rewrite List.filter_app, length_app. Qed.

Lemma clock_samples_app (tr1 tr2 : list Event) :
  clock_samples (tr1 ++ tr2) = clock_samples tr1 ++ clock_samples tr2.
Proof. unfold clock_samples. apply flat_map_app. Qed.

Lemma routes_frame (c : Request) (w : World) :
  clock (snd (routes c w)) = clock w
  /\ ticks (snd (routes c w)) = ticks w
  /\ LIMITER (snd (routes c w)) = LIMITER w
  /\ exists tr, trace (snd (routes c w)) = trace w ++ tr /\ route_events tr.
Proof.
  assert (Hnil : exists tr, trace w = trace w ++ tr /\ route_events tr).
  { exists []. by rewrite app_nil_r. }
  unfold routes.
  destruct (method c); destruct (path c) as [|name [|last [|? ?]]];
    try (by repeat split);
    repeat (match goal with |- context [String.eqb ?a ?b] => destruct (String.eqb a b) end);
    try (by repeat split);
    (repeat split; eexists [_]; split; [reflexivity | done]).
Qed.

Lemma rateLimit_rejected (c : Request) (next : M Response) (w : World) :
  0 < fst (limiterStub_checkRateLimit (ip_of c) w) ->
  rateLimit c next w =
    (c_json
       (JObject [("error", JString "Rate limit exceeded");
                 ("retryAfter",
                  JNumber (div_1000 (fst (limiterStub_checkRateLimit (ip_of c) w))))])
       (Some 429),
     snd (limiterStub_checkRateLimit (ip_of c) w)).
Proof.
  intros Hpos. unfold rateLimit, bind.
  destruct (limiterStub_checkRateLimit (ip_of c) w) as [ms w1]; simpl in *.
  apply Z.gtb_lt in Hpos. by rewrite Hpos.
Qed.

Lemma rateLimit_let_through (c : Request) (next : M Response) (w : World) :
  fst (limiterStub_checkRateLimit (ip_of c) w) <= 0 ->
  rateLimit c next w =
    next (snd (limiterStub_recordRequest (ip_of c)
                 (snd (limiterStub_checkRateLimit (ip_of c) w)))).
Proof.
  intros Hle. unfold rateLimit, bind.
  destruct (limiterStub_checkRateLimit (ip_of c) w) as [ms w1]; simpl in *.
  destruct (ms >? 0) eqn:E; [apply Z.gtb_lt in E; lia |].
  by destruct (limiterStub_recordRequest (ip_of c) w1).
Qed.

(** C7. For every request whose check returns a wait above 0, the answer is
    the status 429 with the body
    [{"error": "Rate limit exceeded", "retryAfter": wait / 1000}], and the
    rest of the chain is not run: the world is the one the check left, with
    every counter as it was and no call after the check in the trace. *)
Theorem rejected_request_429 (c : Request) (next : M Response) (w : World) :
  0 < fst (limiterStub_checkRateLimit (ip_of c) w) ->
  fst (rateLimit c next w) =
    {| status := 429;
       body := BJson (JObject
                 [("error", JString "Rate limit exceeded");
                  ("retryAfter",
                   JNumber (Qmake (fst (limiterStub_checkRateLimit (ip_of c) w)) 1000))]) |}
  /\ fst (app_fetch c w) = fst (rateLimit c next w)
  /\ snd (app_fetch c w) = snd (limiterStub_checkRateLimit (ip_of c) w)
  /\ COUNTER (snd (app_fetch c w)) = COUNTER w
  /\ trace (snd (app_fetch c w))
     = trace w ++ [EvCheckRateLimit (ip_of c); EvDateNow (clock w (ticks w))].
Proof.
  intros Hpos. unfold app_fetch.
  rewrite !rateLimit_rejected by done. cbn [fst snd].
  rewrite limiterStub_checkRateLimit_run. by cbn.
Qed.

Lemma trace_of_app {A} (m : M A) (w : World) (tr : list Event) :
  trace (snd (m w)) = trace w ++ tr -> trace_of m w = tr.
Proof. intros E. unfold trace_of. rewrite E. apply drop_app_length. Qed.

(** C7 at [burst5]: the sixth request of the burst is told to wait 0.999 s
    and the counter "a" keeps its five increments. *)
Lemma rejected_request_429_witness :
  0 < fst (limiterStub_checkRateLimit (ip_of post_increment_a) burst5)
  /\ fst (app_fetch post_increment_a burst5) =
       {| status := 429;
          body := BJson (JObject [("error", JString "Rate limit exceeded");
                                  ("retryAfter", JNumber (Qmake 999 1000))]) |}
  /\ COUNTER (snd (app_fetch post_increment_a burst5)) = COUNTER burst5
  /\ fst (getCounterValue "a" (snd (app_fetch post_increment_a burst5))) = 5.
Proof.
  assert (H : 0 < fst (limiterStub_checkRateLimit (ip_of post_increment_a) burst5))
    by (vm_compute; reflexivity).
  destruct (rejected_request_429 post_increment_a (routes post_increment_a) burst5 H)
    as (E1 & E2 & _ & E4 & _).
  split; [exact H |]. split; [| split].
  - rewrite E2, E1. vm_compute. reflexivity.
  - exact E4.
  - rewrite getCounterValue_run. unfold storage_get. cbn [fst snd]. rewrite E4.
    vm_compute. reflexivity.
Defined.

(** The whole request, in its two cases. *)
Lemma app_fetch_trace (c : Request) (w : World) :
  exists tr,
    route_events tr
    /\ trace (snd (app_fetch c w)) =
         trace w ++
           (if fst (limiterStub_checkRateLimit (ip_of c) w) >? 0 then
              [EvCheckRateLimit (ip_of c); EvDateNow (clock w (ticks w))]
            else
              [EvCheckRateLimit (ip_of c); EvDateNow (clock w (ticks w));
               EvRecordRequest (ip_of c); EvDateNow (clock w (S (ticks w)))] ++ tr)
    /\ LIMITER (snd (app_fetch c w)) =
         if fst (limiterStub_checkRateLimit (ip_of c) w) >? 0 then LIMITER w
         else <[ip_of c := recorded (clock w (S (ticks w))) (limiter_of w (ip_of c))]>
                (LIMITER w).
Proof.
  unfold app_fetch.
  destruct (fst (limiterStub_checkRateLimit (ip_of c) w) >? 0) eqn:E.
  - apply Z.gtb_lt in E. exists []. split; [done |].
    rewrite rateLimit_rejected by done. cbn [fst snd].
    rewrite limiterStub_checkRateLimit_run. by cbn.
  - assert (Hle : fst (limiterStub_checkRateLimit (ip_of c) w) <= 0).
    { destruct (Z.gtb_spec (fst (limiterStub_checkRateLimit (ip_of c) w)) 0);
        [discriminate | lia]. }
    rewrite rateLimit_let_through by done.
    rewrite limiterStub_checkRateLimit_run. cbn [fst snd].
    rewrite limiterStub_recordRequest_run. cbn [fst snd].
    match goal with |- context [routes c ?w2] =>
      destruct (routes_frame c w2) as (_ & _ & HL & tr & Htr & Hev) end.
    exists tr. split; [done |]. rewrite Htr, HL. cbn.
    split; [by rewrite <- !app_assoc | done].
Qed.

(** C1, as amended. For every request that reaches the limiter, the
    middleware calls [recordRequest] on the limiter of the request exactly
    once when the check returns 0 and not at all when it returns a wait
    above 0: a request answered with 429 leaves the fields of that limiter
    as they were. *)
Theorem record_once_unless_rejected (c : Request) (w : World) :
  record_calls (ip_of c) (trace_of (app_fetch c) w)
  = (if fst (limiterStub_checkRateLimit (ip_of c) w) >? 0 then 0 else 1)%nat
  /\ limiter_of (snd (app_fetch c w)) (ip_of c)
     = if fst (limiterStub_checkRateLimit (ip_of c) w) >? 0
       then limiter_of w (ip_of c)
       else limiter_of
              (snd (recordRequest (ip_of c) (snd (checkRateLimit (ip_of c) w))))
              (ip_of c).
Proof.
  destruct (app_fetch_trace c w) as (tr & Hev & Htr & HL).
  rewrite (trace_of_app _ _ _ Htr).
  unfold limiter_of at 1. rewrite HL.
  destruct (_ >? 0).
  - split; [| done]. unfold record_calls; simpl. reflexivity.
  - split.
    + change ([EvCheckRateLimit (ip_of c); EvDateNow (clock w (ticks w));
               EvRecordRequest (ip_of c); EvDateNow (clock w (S (ticks w)))] ++ tr)
        with ([EvCheckRateLimit (ip_of c); EvDateNow (clock w (ticks w))]
              ++ [EvRecordRequest (ip_of c)]
              ++ [EvDateNow (clock w (S (ticks w)))] ++ tr).
      rewrite !record_calls_app. destruct (Hev (ip_of c)) as [-> _].
      unfold record_calls; simpl. by rewrite String.eqb_refl.
    + rewrite checkRateLimit_run, recordRequest_run. cbn [fst snd].
      unfold limiter_of, ticked; simpl. by rewrite !lookup_insert_eq.
Qed.

(** C1, as stated, fails at the sixth request of the burst: the check
    returns 999, the answer is 429, and [recordRequest] is not called, so
    the limiter keeps its fields and the penalty does not grow. *)
Lemma rejected_request_not_recorded :
  0 < fst (limiterStub_checkRateLimit (ip_of post_increment_a) burst5)
  /\ status (fst (app_fetch post_increment_a burst5)) = 429
  /\ record_calls (ip_of post_increment_a) (trace_of (app_fetch post_increment_a) burst5)
     = 0%nat
  /\ record_calls (ip_of post_increment_a) (trace_of (app_fetch post_increment_a) burst5)
     <> 1%nat
  /\ limiter_of (snd (app_fetch post_increment_a burst5)) (ip_of post_increment_a)
     = limiter_of burst5 (ip_of post_increment_a).
Proof.
  repeat split; try (vm_compute; reflexivity).
  vm_compute. discriminate.
Qed.

(** C6, as amended. The middleware passes no timestamp: [checkRateLimit]
    and [recordRequest] each read [Date.now()] themselves.  For every
    request the check sees one reading of the clock and, when the request
    is let through, [recordRequest] sees the next one, which is the time it
    records with. *)
Theorem check_and_record_each_read_the_clock (c : Request) (w : World) :
  fst (limiterStub_checkRateLimit (ip_of c) w)
  = (if clock w (ticks w) >=? nextAllowedTime (limiter_of w (ip_of c)) then 0
     else Z.max 0 (nextAllowedTime (limiter_of w (ip_of c)) - clock w (ticks w)
                   - GRACE_PERIOD))
  /\ clock_samples (trace_of (app_fetch c) w)
     = (if fst (limiterStub_checkRateLimit (ip_of c) w) >? 0
        then [clock w (ticks w)]
        else [clock w (ticks w); clock w (S (ticks w))])
  /\ limiter_of (snd (app_fetch c w)) (ip_of c)
     = if fst (limiterStub_checkRateLimit (ip_of c) w) >? 0
       then limiter_of w (ip_of c)
       else recorded (clock w (S (ticks w))) (limiter_of w (ip_of c)).
Proof.
  split; [by rewrite limiterStub_checkRateLimit_run |].
  destruct (app_fetch_trace c w) as (tr & Hev & Htr & HL).
  rewrite (trace_of_app _ _ _ Htr).
  unfold limiter_of at 1. rewrite HL.
  destruct (_ >? 0).
  - by split.
  - split.
    + rewrite clock_samples_app. destruct (Hev (ip_of c)) as [_ ->].
      reflexivity.
    + by rewrite lookup_insert_eq.
Qed.

(** C6, as stated, fails on a clock that moves between the two calls: the
    check reads 999, one millisecond before the boundary 1000, and lets the
    request through in the grace period; [recordRequest] then reads 1000,
    takes the open branch and resets the hits, where the time of the check
    would have counted a hit. *)
Lemma check_and_record_read_different_times :
  trace_of (app_fetch post_increment_a) skew1
  = [EvCheckRateLimit "global"; EvDateNow 999;
     EvRecordRequest "global"; EvDateNow 1000; EvIncrement "a"]
  /\ ~ same_now (clock_samples (trace_of (app_fetch post_increment_a) skew1))
  /\ limiter_of (snd (app_fetch post_increment_a skew1)) "global"
     = {| nextAllowedTime := 1500; consecutiveHits := 0 |}
  /\ recorded 999 (limiter_of skew1 "global")
     = {| nextAllowedTime := 1499; consecutiveHits := 1 |}.
Proof.
  assert (E : clock_samples (trace_of (app_fetch post_increment_a) skew1) = [999; 1000])
    by (vm_compute; reflexivity).
  split; [vm_compute; reflexivity |].
  split; [| split; vm_compute; reflexivity].
  rewrite E. intros H.
  specialize (H 999 1000). simpl in H.
  assert (999 = 1000) by (apply H; auto). discriminate.
Qed.

(** ** Keys do not interfere, and the first steps on a new key *)

Lemma recordRequest_other_key (this id : string) (w : World) :
  this ≠ id ->
  limiter_of (snd (recordRequest this w)) id = limiter_of w id.
Proof.
  intros Hne. rewrite recordRequest_run; simpl. by apply limiter_of_insert_ne.
Qed.

(** X11. A request touches the limiter of its own address only: the fields
    of every other limiter are the same after the request as before. *)
Lemma app_fetch_other_key (c : Request) (id : string) (w : World) :
  ip_of c ≠ id ->
  limiter_of (snd (app_fetch c w)) id = limiter_of w id.
Proof.
  intros Hne. destruct (app_fetch_trace c w) as (tr & _ & _ & HL).
  unfold limiter_of. rewrite HL.
  destruct (_ >? 0); [done |]. by rewrite lookup_insert_ne.
Qed.

Example fresh_counter_reads_zero (clk : nat -> Z) :
  fst (getCounterValue "a" (fresh clk)) = 0.
Proof. reflexivity. Qed.

Example fresh_limiter_is_open :
  fst (checkRateLimit "global" (fresh (fun _ => 0))) = 0.
Proof. reflexivity. Qed.

Example first_record_arms_500 :
  limiter_of (snd (recordRequest "global" (fresh (fun _ => 7)))) "global"
  = {| nextAllowedTime := 507; consecutiveHits := 0 |}.
Proof. vm_compute. reflexivity. Qed.

Example burst5_counter :
  fst (getCounterValue "a" burst5) = 5
  /\ fst (limiterStub_checkRateLimit "global" burst5) = 999.
Proof. split; vm_compute; reflexivity. Qed.

(** * Further properties of the code *)

(** ** The limiter over a whole sequence of requests *)

(** What one request does to the limiters: nothing, or one [recordRequest]
    on its own limiter at the second reading of the clock. *)
Lemma app_fetch_limiters (c : Request) (w : World) :
  clock (snd (app_fetch c w)) = clock w
  /\ (ticks (snd (app_fetch c w)) = S (ticks w)
      /\ LIMITER (snd (app_fetch c w)) = LIMITER w
      \/ ticks (snd (app_fetch c w)) = S (S (ticks w))
         /\ LIMITER (snd (app_fetch c w))
            = <[ip_of c := recorded (clock w (S (ticks w))) (limiter_of w (ip_of c))]>
                (LIMITER w)).
Proof.
  unfold app_fetch.
  destruct (Z.gtb_spec (fst (limiterStub_checkRateLimit (ip_of c) w)) 0) as [Hpos|Hle].
  - rewrite rateLimit_rejected by lia. cbn [fst snd].
    rewrite limiterStub_checkRateLimit_run. cbn. auto.
  - rewrite rateLimit_let_through by done.
    rewrite limiterStub_checkRateLimit_run. cbn [fst snd].
    rewrite limiterStub_recordRequest_run. cbn [fst snd].
    match goal with |- context [routes c ?w2] =>
      destruct (routes_frame c w2) as (Hc & Ht & HL & _) end.
    rewrite Hc, Ht, HL. cbn. auto.
Qed.

Lemma waitTime_le_max (h : Z) : waitTime h <= 30000.
Proof. unfold waitTime, MAX_WAIT_TIME. apply Z.le_min_r. Qed.

Lemma waitTime_ge_base (h : Z) : 1 <= h -> 500 <= waitTime h.
Proof.
  intros Hh. unfold waitTime, BASE_WAIT_TIME, MAX_WAIT_TIME.
  assert (0 < 2 ^ (h - 1)) by (apply Z.pow_pos_nonneg; lia).
  apply Z.min_glb; lia.
Qed.

Lemma recorded_never_retreats (now : Z) (l : LimiterFields) :
  nextAllowedTime l <= nextAllowedTime (recorded now l).
Proof. unfold recorded, BASE_WAIT_TIME. case_geb; simpl; lia. Qed.

Lemma recorded_at_most_30s_ahead (now bound : Z) (l : LimiterFields) :
  nextAllowedTime l <= bound + 30000 -> now <= bound ->
  nextAllowedTime (recorded now l) <= bound + 30000.
Proof.
  intros Hl Hnow. unfold recorded, BASE_WAIT_TIME.
  pose proof (waitTime_le_max (consecutiveHits l + 1)).
  case_geb; simpl; lia.
Qed.

Lemma limiters_ok_fresh (clk : nat -> Z) : limiters_ok (fresh clk).
Proof. intros id. unfold limiter_of; simpl. rewrite lookup_empty; simpl. lia. Qed.

Lemma limiters_ok_app_fetch (c : Request) (w : World) :
  limiters_ok w -> limiters_ok (snd (app_fetch c w)).
Proof.
  intros Hok id.
  destruct (app_fetch_limiters c w) as (_ & [[_ HL] | [_ HL]]);
    unfold limiter_of; rewrite HL; [apply Hok |].
  destruct (decide (ip_of c = id)) as [<-|Hne].
  - rewrite lookup_insert_eq; simpl.
    destruct (Hok (ip_of c)) as [Hh Hn]. split.
    + by apply recorded_hits_nonneg.
    + pose proof (recorded_never_retreats (clock w (S (ticks w))) (limiter_of w (ip_of c))).
      lia.
  - rewrite lookup_insert_ne by done. apply Hok.
Qed.

Lemma limiters_ok_serve_all (cs : list Request) (w : World) :
  limiters_ok w -> limiters_ok (serve_all cs w).
Proof.
  revert w. induction cs as [|c cs IH]; intros w Hok; simpl; [done |].
  apply IH. by apply limiters_ok_app_fetch.
Qed.

(** X1. Whatever requests were served since the worker started, on whatever
    clock, no limiter has a negative [consecutiveHits] or a negative
    [nextAllowedTime]. *)
Theorem limiter_fields_never_negative
    (clk : nat -> Z) (cs : list Request) (id : string) :
  0 <= consecutiveHits (limiter_of (serve_all cs (fresh clk)) id)
  /\ 0 <= nextAllowedTime (limiter_of (serve_all cs (fresh clk)) id).
Proof. apply limiters_ok_serve_all, limiters_ok_fresh. Qed.

Lemma app_fetch_never_retreats (c : Request) (w : World) (id : string) :
  nextAllowedTime (limiter_of w id)
  <= nextAllowedTime (limiter_of (snd (app_fetch c w)) id).
Proof.
  destruct (app_fetch_limiters c w) as (_ & [[_ HL] | [_ HL]]);
    unfold limiter_of at 2; rewrite HL; [done |].
  destruct (decide (ip_of c = id)) as [<-|Hne].
  - rewrite lookup_insert_eq; simpl. apply recorded_never_retreats.
  - by rewrite lookup_insert_ne.
Qed.

(** X2. Over any sequence of requests, from any state of the world, the
    [nextAllowedTime] of every limiter only grows: no request, let through
    or answered with 429, moves a boundary backward. *)
Theorem boundary_grows_over_requests (cs : list Request) (w : World) (id : string) :
  nextAllowedTime (limiter_of w id)
  <= nextAllowedTime (limiter_of (serve_all cs w) id).
Proof.
  revert w. induction cs as [|c cs IH]; intros w; simpl; [done |].
  etrans; [apply (app_fetch_never_retreats c w id) | apply IH].
Qed.

Lemma within_30s_app_fetch (c : Request) (w : World) :
  (forall k, clock w k <= clock w (S k)) ->
  within_30s w -> within_30s (snd (app_fetch c w)).
Proof.
  intros Hmono Hin id. unfold within_30s in Hin.
  destruct (app_fetch_limiters c w) as (Hc & [[Ht HL] | [Ht HL]]);
    rewrite Hc, Ht; unfold limiter_of at 1; rewrite HL.
  - specialize (Hin id). pose proof (Hmono (ticks w)). unfold limiter_of in Hin. lia.
  - pose proof (Hmono (ticks w)). pose proof (Hmono (S (ticks w))).
    destruct (decide (ip_of c = id)) as [<-|Hne].
    + rewrite lookup_insert_eq; simpl.
      apply recorded_at_most_30s_ahead; [| done].
      specialize (Hin (ip_of c)). lia.
    + rewrite lookup_insert_ne by done.
      specialize (Hin id). unfold limiter_of in Hin. lia.
Qed.

Lemma serve_all_clock (cs : list Request) (w : World) :
  clock (serve_all cs w) = clock w.
Proof.
  revert w. induction cs as [|c cs IH]; intros w; simpl; [done |].
  rewrite IH. by destruct (app_fetch_limiters c w) as (-> & _).
Qed.

Lemma within_30s_serve_all (cs : list Request) (w : World) :
  (forall k, clock w k <= clock w (S k)) ->
  within_30s w -> within_30s (serve_all cs w).
Proof.
  revert w. induction cs as [|c cs IH]; intros w Hmono Hin; simpl; [done |].
  apply IH.
  - by destruct (app_fetch_limiters c w) as (-> & _).
  - by apply within_30s_app_fetch.
Qed.

(** X3. On a clock that starts at a time that is not negative and never runs
    backward, whatever requests were served since the worker started, the
    wait a check reports is at most 27000 ms: no client is ever told to stay
    away for more than [MAX_WAIT_TIME - GRACE_PERIOD]. *)
Theorem wait_at_most_27s (clk : nat -> Z) (cs : list Request) (id : string) :
  clock_forward clk ->
  fst (checkRateLimit id (serve_all cs (fresh clk))) <= 27000.
Proof.
  intros [H0 Hmono].
  assert (Hin : within_30s (serve_all cs (fresh clk))).
  { apply within_30s_serve_all; [done |].
    intros id'. unfold limiter_of; simpl. rewrite lookup_empty; simpl. lia. }
  rewrite checkRateLimit_run. cbn [fst]. unfold GRACE_PERIOD.
  specialize (Hin id). destruct (_ >=? _); lia.
Qed.

Lemma wait_at_most_27s_witness :
  clock_forward clock_1ms
  /\ fst (checkRateLimit "global"
            (serve_all (List.repeat post_increment_a 5) (fresh clock_1ms)))
     <= 27000.
Proof.
  assert (H : clock_forward clock_1ms).
  { unfold clock_forward, clock_1ms. split; [simpl; lia | intros k; lia]. }
  split; [exact H |].
  apply (wait_at_most_27s clock_1ms (List.repeat post_increment_a 5) "global" H).
Defined.

(** ** The check and the wait *)

(** X4. The two branches of [checkRateLimit] are one formula: the wait is
    [max(0, nextAllowedTime - now - 3000)] in every state, and it is above 0
    (the request is answered with 429) exactly when the boundary is more
    than 3000 ms after the time the check reads. *)
Theorem check_is_boundary_minus_grace (this : string) (w : World) :
  fst (checkRateLimit this w)
  = Z.max 0 (nextAllowedTime (limiter_of w this) - clock w (ticks w) - 3000)
  /\ (0 < fst (checkRateLimit this w)
      <-> 3000 < nextAllowedTime (limiter_of w this) - clock w (ticks w)).
Proof.
  rewrite checkRateLimit_run. cbn [fst]. unfold GRACE_PERIOD.
  case_geb; lia.
Qed.

(** X5. A later check of the same limiter never reports a longer wait:
    between two worlds that hold the same limiters, the one whose clock
    reads the later time gets the smaller or equal wait. *)
Theorem wait_shrinks_with_time (this : string) (w1 w2 : World) :
  LIMITER w1 = LIMITER w2 ->
  clock w1 (ticks w1) <= clock w2 (ticks w2) ->
  fst (checkRateLimit this w2) <= fst (checkRateLimit this w1).
Proof.
  intros HL Hle. rewrite !checkRateLimit_run. cbn [fst].
  unfold limiter_of. rewrite HL. unfold GRACE_PERIOD.
  do 2 case_geb; lia.
Qed.

Lemma wait_shrinks_with_time_witness :
  LIMITER burst5_then_wait = LIMITER (snd (app_fetch post_increment_a burst5_then_wait))
  /\ clock burst5_then_wait (ticks burst5_then_wait)
     <= clock (snd (app_fetch post_increment_a burst5_then_wait))
              (ticks (snd (app_fetch post_increment_a burst5_then_wait)))
  /\ fst (checkRateLimit "global" (snd (app_fetch post_increment_a burst5_then_wait)))
     <= fst (checkRateLimit "global" burst5_then_wait).
Proof.
  assert (HL : LIMITER burst5_then_wait
               = LIMITER (snd (app_fetch post_increment_a burst5_then_wait)))
    by (vm_compute; reflexivity).
  assert (Hle : clock burst5_then_wait (ticks burst5_then_wait)
                <= clock (snd (app_fetch post_increment_a burst5_then_wait))
                         (ticks (snd (app_fetch post_increment_a burst5_then_wait))))
    by (vm_compute; discriminate).
  split; [exact HL |]. split; [exact Hle |].
  apply (wait_shrinks_with_time "global" burst5_then_wait
           (snd (app_fetch post_increment_a burst5_then_wait)) HL Hle).
Defined.



(** X7. From the first hit on, the wait doubles with every further hit
    until it is capped: the wait of hit [h + 1] is the smaller of twice the
    wait of hit [h] and 30000, the first hit waits 500, and from the seventh
    hit on the wait is 30000. *)
Theorem waitTime_doubles_up_to_cap (h : Z) :
  1 <= h ->
  waitTime 1 = 500
  /\ waitTime (h + 1) = Z.min (2 * waitTime h) 30000
  /\ waitTime h = (if h <=? 6 then 500 * 2 ^ (h - 1) else 30000).
Proof.
  intros Hh. split; [reflexivity |].
  unfold waitTime, BASE_WAIT_TIME, MAX_WAIT_TIME.
  assert (Hp : 0 < 2 ^ (h - 1)) by (apply Z.pow_pos_nonneg; lia).
  split.
  - replace (h + 1 - 1) with (Z.succ (h - 1)) by lia.
    rewrite Z.pow_succ_r by lia. lia.
  - destruct (Z.leb_spec h 6) as [Hle|Hgt].
    + apply Z.min_l.
      assert (2 ^ (h - 1) <= 2 ^ 5) by (apply Z.pow_le_mono_r; lia).
      change (2 ^ 5) with 32 in *. lia.
    + apply Z.min_r.
      assert (2 ^ 6 <= 2 ^ (h - 1)) by (apply Z.pow_le_mono_r; lia).
      change (2 ^ 6) with 64 in *. lia.
Qed.

Lemma waitTime_doubles_up_to_cap_witness :
  1 <= 6
  /\ waitTime 1 = 500
  /\ waitTime (6 + 1) = Z.min (2 * waitTime 6) 30000
  /\ waitTime 6 = (if 6 <=? 6 then 500 * 2 ^ (6 - 1) else 30000).
Proof. split; [lia | apply (waitTime_doubles_up_to_cap 6); lia]. Defined.

(** X8. Every [recordRequest] on a limiter whose hit count is not negative
    puts the boundary at least 500 ms after the time it reads, in the open
    and in the penalized branch: a request that was let through always arms
    the minimum spacing. *)
Theorem recordRequest_arms_base_wait (this : string) (w : World) :
  0 <= consecutiveHits (limiter_of w this) ->
  clock w (ticks w) + 500
  <= nextAllowedTime (limiter_of (snd (recordRequest this w)) this).
Proof.
  intros Hh. rewrite recordRequest_run; simpl. rewrite limiter_of_insert.
  unfold recorded, BASE_WAIT_TIME.
  pose proof (waitTime_ge_base (consecutiveHits (limiter_of w this) + 1)).
  case_geb; simpl; lia.
Qed.

Lemma recordRequest_arms_base_wait_witness :
  0 <= consecutiveHits (limiter_of burst5 "global")
  /\ clock burst5 (ticks burst5) + 500
     <= nextAllowedTime (limiter_of (snd (recordRequest "global" burst5)) "global").
Proof.
  assert (H : 0 <= consecutiveHits (limiter_of burst5 "global"))
    by (vm_compute; discriminate).
  split; [exact H |].
  apply (recordRequest_arms_base_wait "global" burst5 H).
Defined.

Lemma app_fetch_other_key_witness :
  ip_of post_decrement_b_from_ip ≠ "global"
  /\ limiter_of (snd (app_fetch post_decrement_b_from_ip burst5)) "global"
     = limiter_of burst5 "global".
Proof.
  assert (H : ip_of post_decrement_b_from_ip ≠ "global")
    by (vm_compute; discriminate).
  split; [exact H |].
  apply (app_fetch_other_key post_decrement_b_from_ip "global" burst5 H).
Defined.

(** ** The counter and the routes *)

Lemma getCounterValue_ext (id : string) (w1 w2 : World) :
  COUNTER w1 !! id = COUNTER w2 !! id ->
  fst (getCounterValue id w1) = fst (getCounterValue id w2).
Proof. intros E. rewrite !getCounterValue_run. unfold storage_get; cbn. by rewrite E. Qed.

(** X9. A counter reads back what was written: after [increment] or
    [decrement], with any amount or the default one, [getCounterValue]
    returns the value the call returned, and the storage holds it under
    "value". *)
Theorem counter_reads_its_write (this : string) (amount : option Z) (w : World) :
  fst (getCounterValue this (snd (increment this amount w)))
  = fst (increment this amount w)
  /\ fst (storage_get this "value" (snd (increment this amount w)))
     = Some (fst (increment this amount w))
  /\ fst (getCounterValue this (snd (decrement this amount w)))
     = fst (decrement this amount w)
  /\ fst (storage_get this "value" (snd (decrement this amount w)))
     = Some (fst (decrement this amount w)).
Proof.
  rewrite increment_run, decrement_run, !getCounterValue_run. cbn [fst snd].
  rewrite !storage_get_put, !or_zero_Some. done.
Qed.

(** X10. [increment] and [decrement] with the same amount undo each other in
    both orders, for any amount [a] and value [v] such that [a], [v],
    [v + a] and [v - a] are at most [2^53] in absolute value (where the
    additions are exact); the counter is not clamped at 0, so a decrement
    first is undone as well, and [decrement] returns [v - a]. *)
Theorem increment_and_decrement_are_inverse
    (this : string) (amount : option Z) (w : World) :
  - 2 ^ 53 <= amount_or_default amount <= 2 ^ 53 ->
  - 2 ^ 53 <= fst (getCounterValue this w) <= 2 ^ 53 ->
  - 2 ^ 53 <= fst (getCounterValue this w) + amount_or_default amount <= 2 ^ 53 ->
  - 2 ^ 53 <= fst (getCounterValue this w) - amount_or_default amount <= 2 ^ 53 ->
  fst (getCounterValue this
         (snd (decrement this amount (snd (increment this amount w)))))
  = fst (getCounterValue this w)
  /\ fst (getCounterValue this
            (snd (increment this amount (snd (decrement this amount w)))))
     = fst (getCounterValue this w)
  /\ fst (decrement this amount w)
     = fst (getCounterValue this w) - amount_or_default amount.
Proof.
  intros _ Hv Hplus Hminus.
  rewrite value_after_increment_decrement, value_after_decrement_increment.
  rewrite decrement_run. cbn [fst].
  rewrite getCounterValue_run in *. cbn [fst] in *.
  set (v := or_zero (fst (storage_get this "value" w))) in *.
  set (a := amount_or_default amount) in *.
  unfold js_sub, js_add.
  rewrite (to_double_exact (v + a)), (to_double_exact (v - a)) by lia.
  replace (v + a - a) with v by lia. replace (v - a + a) with v by lia.
  by rewrite (to_double_exact v) by lia.
Qed.

Lemma increment_and_decrement_are_inverse_witness :
  - 2 ^ 53 <= amount_or_default (Some 7) <= 2 ^ 53
  /\ - 2 ^ 53 <= fst (getCounterValue "a" burst5) <= 2 ^ 53
  /\ - 2 ^ 53 <= fst (getCounterValue "a" burst5) + amount_or_default (Some 7) <= 2 ^ 53
  /\ - 2 ^ 53 <= fst (getCounterValue "a" burst5) - amount_or_default (Some 7) <= 2 ^ 53
  /\ fst (getCounterValue "a"
            (snd (increment "a" (Some 7) (snd (decrement "a" (Some 7) burst5)))))
     = fst (getCounterValue "a" burst5)
  /\ fst (decrement "a" (Some 7) burst5)
     = fst (getCounterValue "a" burst5) - amount_or_default (Some 7).
Proof.
  assert (Ha : - 2 ^ 53 <= amount_or_default (Some 7) <= 2 ^ 53)
    by (vm_compute; split; discriminate).
  assert (Hv : - 2 ^ 53 <= fst (getCounterValue "a" burst5) <= 2 ^ 53)
    by (vm_compute; split; discriminate).
  assert (Hp : - 2 ^ 53 <= fst (getCounterValue "a" burst5)
                           + amount_or_default (Some 7) <= 2 ^ 53)
    by (vm_compute; split; discriminate).
  assert (Hm : - 2 ^ 53 <= fst (getCounterValue "a" burst5)
                           - amount_or_default (Some 7) <= 2 ^ 53)
    by (vm_compute; split; discriminate).
  destruct (increment_and_decrement_are_inverse "a" (Some 7) burst5 Ha Hv Hp Hm)
    as (_ & E2 & E3).
  split; [exact Ha |]. split; [exact Hv |]. split; [exact Hp |].
  split; [exact Hm |]. split; [exact E2 | exact E3].
Defined.

(** The world in which the routes run when a request is let through. *)
Lemma let_through_world (id : string) (w : World) :
  snd (limiterStub_recordRequest id (snd (limiterStub_checkRateLimit id w)))
  = mkWorld (clock w) (S (S (ticks w)))
      (<[id := recorded (clock w (S (ticks w))) (limiter_of w id)]> (LIMITER w))
      (COUNTER w)
      (trace w ++ [EvCheckRateLimit id; EvDateNow (clock w (ticks w));
                   EvRecordRequest id; EvDateNow (clock w (S (ticks w)))]).
Proof.
  rewrite limiterStub_checkRateLimit_run. cbn [fst snd].
  rewrite limiterStub_recordRequest_run. cbn [fst snd]. unfold limiter_of; cbn.
  by rewrite <- app_assoc.
Qed.

(** A request changes the counters as its route does, if it gets there. *)
Lemma app_fetch_cases (c : Request) (w : World) :
  (0 < fst (limiterStub_checkRateLimit (ip_of c) w)
   /\ COUNTER (snd (app_fetch c w)) = COUNTER w)
  \/ (exists w2, COUNTER w2 = COUNTER w /\ app_fetch c w = routes c w2).
Proof.
  unfold app_fetch.
  destruct (Z.gtb_spec (fst (limiterStub_checkRateLimit (ip_of c) w)) 0) as [Hpos|Hle].
  - left. split; [lia |]. rewrite rateLimit_rejected by lia. cbn [snd].
    by rewrite limiterStub_checkRateLimit_run.
  - right. eexists. split; [| by apply rateLimit_let_through].
    by rewrite let_through_world.
Qed.

Lemma routes_other_counter (c : Request) (name : string) (w : World) :
  head (path c) ≠ Some name ->
  COUNTER (snd (routes c w)) !! name = COUNTER w !! name.
Proof.
  intros Hne. unfold routes.
  destruct (method c); destruct (path c) as [|n [|last [|? ?]]]; try done;
    repeat (match goal with |- context [String.eqb ?a ?b] => destruct (String.eqb a b) end);
    try done;
    (cbn; apply lookup_insert_ne; intros ->; by apply Hne).
Qed.

Lemma routes_GET_reads_only (c : Request) (w : World) :
  method c = GET -> COUNTER (snd (routes c w)) = COUNTER w.
Proof.
  intros Hm. unfold routes. rewrite Hm.
  destruct (path c) as [|n [|last [|? ?]]]; try done.
  by destruct (String.eqb last "value").
Qed.

(** X12. A request writes at most the counter named by the first segment of
    its path: every other counter has the same storage after the request,
    whether it was let through or not. *)
Theorem app_fetch_other_counter (c : Request) (name : string) (w : World) :
  head (path c) ≠ Some name ->
  COUNTER (snd (app_fetch c w)) !! name = COUNTER w !! name.
Proof.
  intros Hne. destruct (app_fetch_cases c w) as [[_ ->] | (w2 & HC & ->)]; [done |].
  rewrite <- HC. by apply routes_other_counter.
Qed.

Lemma app_fetch_other_counter_witness :
  head (path post_decrement_b_from_ip) ≠ Some "a"
  /\ COUNTER (snd (app_fetch post_decrement_b_from_ip burst5)) !! "a"
     = COUNTER burst5 !! "a".
Proof.
  assert (H : head (path post_decrement_b_from_ip) ≠ Some "a")
    by (vm_compute; discriminate).
  split; [exact H |].
  apply (app_fetch_other_counter post_decrement_b_from_ip "a" burst5 H).
Defined.

(** X13. A [GET] request never writes: the storage of every counter is the
    same after it, whatever its path and whether it was let through or
    not. *)
Theorem get_request_writes_no_counter (c : Request) (w : World) :
  method c = GET -> COUNTER (snd (app_fetch c w)) = COUNTER w.
Proof.
  intros Hm. destruct (app_fetch_cases c w) as [[_ ->] | (w2 & HC & ->)]; [done |].
  rewrite <- HC. by apply routes_GET_reads_only.
Qed.

Lemma get_request_writes_no_counter_witness :
  method get_value_a = GET
  /\ COUNTER (snd (app_fetch get_value_a back_after_wait)) = COUNTER back_after_wait.
Proof.
  split; [reflexivity |].
  apply (get_request_writes_no_counter get_value_a back_after_wait). reflexivity.
Defined.

(** A request that is let through is answered by its route, run after the
    check and the record. *)
Lemma app_fetch_let_through (c : Request) (w : World) :
  fst (limiterStub_checkRateLimit (ip_of c) w) = 0 ->
  app_fetch c w =
    routes c
      (mkWorld (clock w) (S (S (ticks w)))
         (<[ip_of c := recorded (clock w (S (ticks w))) (limiter_of w (ip_of c))]>
            (LIMITER w))
         (COUNTER w)
         (trace w ++ [EvCheckRateLimit (ip_of c); EvDateNow (clock w (ticks w));
                      EvRecordRequest (ip_of c); EvDateNow (clock w (S (ticks w)))])).
Proof.
  intros H0. unfold app_fetch.
  rewrite rateLimit_let_through by lia. by rewrite let_through_world.
Qed.

Lemma obj_increment_run (id : string) (w : World) :
  obj_increment id w =
    (js_add (fst (getCounterValue id w)) 1,
     snd (storage_put id "value" (js_add (fst (getCounterValue id w)) 1)
            (snd (emit (EvIncrement id) w)))).
Proof. reflexivity. Qed.

Lemma obj_decrement_run (id : string) (w : World) :
  obj_decrement id w =
    (js_sub (fst (getCounterValue id w)) 1,
     snd (storage_put id "value" (js_sub (fst (getCounterValue id w)) 1)
            (snd (emit (EvDecrement id) w)))).
Proof. reflexivity. Qed.

(** X14. [POST /:name/increment], when it is let through and served with no
    step of another request in between, is answered with the status 200 and
    the body [{"value": v + 1}], where [v] is the value of the counter
    [name] before the request (0 when it was never written), and the counter
    then holds [v + 1]; this for [-2^53 <= v < 2^53], where the addition is
    exact. *)
Theorem post_increment_adds_one (c : Request) (name : string) (w : World) :
  method c = POST -> path c = [name; "increment"] -> name ≠ "" ->
  fst (limiterStub_checkRateLimit (ip_of c) w) = 0 ->
  - 2 ^ 53 <= fst (getCounterValue name w) < 2 ^ 53 ->
  fst (app_fetch c w)
  = {| status := 200;
       body := BJson (JObject
                 [("value", JNumber (inject_Z (fst (getCounterValue name w) + 1)))]) |}
  /\ fst (getCounterValue name (snd (app_fetch c w)))
     = fst (getCounterValue name w) + 1.
Proof.
  intros Hm Hp _ H0 Hv. rewrite app_fetch_let_through by done.
  unfold routes. rewrite Hm, Hp. cbn [String.eqb Ascii.eqb Bool.eqb].
  unfold bind, ret. rewrite obj_increment_run. cbn [fst snd].
  match goal with |- context [getCounterValue name ?w2] =>
    rewrite (getCounterValue_ext name w2 w) by reflexivity end.
  unfold js_add. rewrite to_double_exact by lia.
  split; [reflexivity |].
  rewrite getCounterValue_run. cbn [fst].
  rewrite storage_get_put, or_zero_Some. reflexivity.
Qed.

Lemma post_increment_adds_one_witness :
  method post_increment_a = POST
  /\ path post_increment_a = ["a"; "increment"]
  /\ "a" ≠ ""
  /\ fst (limiterStub_checkRateLimit (ip_of post_increment_a) back_after_wait) = 0
  /\ - 2 ^ 53 <= fst (getCounterValue "a" back_after_wait) < 2 ^ 53
  /\ fst (app_fetch post_increment_a back_after_wait)
     = {| status := 200;
          body := BJson (JObject [("value", JNumber (inject_Z 6))]) |}
  /\ fst (getCounterValue "a" (snd (app_fetch post_increment_a back_after_wait))) = 6.
Proof.
  assert (Hn : "a" ≠ "") by discriminate.
  assert (H0 : fst (limiterStub_checkRateLimit (ip_of post_increment_a)
                      back_after_wait) = 0)
    by (vm_compute; reflexivity).
  assert (Hr : - 2 ^ 53 <= fst (getCounterValue "a" back_after_wait) < 2 ^ 53)
    by (vm_compute; split; [intros HH; discriminate HH | reflexivity]).
  destruct (post_increment_adds_one post_increment_a "a" back_after_wait
              eq_refl eq_refl Hn H0 Hr) as [E1 E2].
  split; [reflexivity |]. split; [reflexivity |]. split; [exact Hn |].
  split; [exact H0 |]. split; [exact Hr |].
  assert (Hv : fst (getCounterValue "a" back_after_wait) + 1 = 6)
    by (vm_compute; reflexivity).
  split; [rewrite E1 | rewrite E2]; by rewrite Hv.
Defined.

(** X15. [POST /:name/decrement], when it is let through and served with no
    step of another request in between, is answered with the status 200 and
    the body [{"value": v - 1}], where [v] is the value of the counter
    [name] before the request, and the counter then holds [v - 1]; this for
    [-2^53 < v <= 2^53], where the subtraction is exact.  There is no floor:
    a counter at 0 goes to -1. *)
Theorem post_decrement_subtracts_one (c : Request) (name : string) (w : World) :
  method c = POST -> path c = [name; "decrement"] -> name ≠ "" ->
  fst (limiterStub_checkRateLimit (ip_of c) w) = 0 ->
  - 2 ^ 53 < fst (getCounterValue name w) <= 2 ^ 53 ->
  fst (app_fetch c w)
  = {| status := 200;
       body := BJson (JObject
                 [("value", JNumber (inject_Z (fst (getCounterValue name w) - 1)))]) |}
  /\ fst (getCounterValue name (snd (app_fetch c w)))
     = fst (getCounterValue name w) - 1.
Proof.
  intros Hm Hp _ H0 Hv. rewrite app_fetch_let_through by done.
  unfold routes. rewrite Hm, Hp. cbn [String.eqb Ascii.eqb Bool.eqb].
  unfold bind, ret. rewrite obj_decrement_run. cbn [fst snd].
  match goal with |- context [getCounterValue name ?w2] =>
    rewrite (getCounterValue_ext name w2 w) by reflexivity end.
  unfold js_sub. rewrite to_double_exact by lia.
  split; [reflexivity |].
  rewrite getCounterValue_run. cbn [fst].
  rewrite storage_get_put, or_zero_Some. reflexivity.
Qed.

Lemma post_decrement_subtracts_one_witness :
  method post_decrement_b_from_ip = POST
  /\ path post_decrement_b_from_ip = ["b"; "decrement"]
  /\ "b" ≠ ""
  /\ fst (limiterStub_checkRateLimit (ip_of post_decrement_b_from_ip) burst5) = 0
  /\ - 2 ^ 53 < fst (getCounterValue "b" burst5) <= 2 ^ 53
  /\ fst (app_fetch post_decrement_b_from_ip burst5)
     = {| status := 200;
          body := BJson (JObject [("value", JNumber (inject_Z (-1)))]) |}
  /\ fst (getCounterValue "b" (snd (app_fetch post_decrement_b_from_ip burst5))) = -1.
Proof.
  assert (Hn : "b" ≠ "") by discriminate.
  assert (H0 : fst (limiterStub_checkRateLimit (ip_of post_decrement_b_from_ip)
                      burst5) = 0)
    by (vm_compute; reflexivity).
  assert (Hr : - 2 ^ 53 < fst (getCounterValue "b" burst5) <= 2 ^ 53)
    by (vm_compute; split; [reflexivity | intros HH; discriminate HH]).
  destruct (post_decrement_subtracts_one post_decrement_b_from_ip "b" burst5
              eq_refl eq_refl Hn H0 Hr) as [E1 E2].
  split; [reflexivity |]. split; [reflexivity |]. split; [exact Hn |].
  split; [exact H0 |]. split; [exact Hr |].
  assert (Hv : fst (getCounterValue "b" burst5) - 1 = -1)
    by (vm_compute; reflexivity).
  split; [rewrite E1 | rewrite E2]; by rewrite Hv.
Defined.

(** X16. [GET /:name/value], when it is let through, is answered with the
    status 200 and the body [{"value": v}], where [v] is the value of the
    counter [name], and no counter is written. *)
Theorem get_value_reads_counter (c : Request) (name : string) (w : World) :
  method c = GET -> path c = [name; "value"] -> name ≠ "" ->
  fst (limiterStub_checkRateLimit (ip_of c) w) = 0 ->
  fst (app_fetch c w)
  = {| status := 200;
       body := BJson (JObject
                 [("value", JNumber (inject_Z (fst (getCounterValue name w))))]) |}
  /\ COUNTER (snd (app_fetch c w)) = COUNTER w.
Proof.
  intros Hm Hp _ H0. rewrite app_fetch_let_through by done.
  unfold routes. rewrite Hm, Hp. cbn [String.eqb Ascii.eqb Bool.eqb].
  split; reflexivity.
Qed.

Lemma get_value_reads_counter_witness :
  method get_value_a = GET
  /\ path get_value_a = ["a"; "value"]
  /\ "a" ≠ ""
  /\ fst (limiterStub_checkRateLimit (ip_of get_value_a) back_after_wait) = 0
  /\ fst (app_fetch get_value_a back_after_wait)
     = {| status := 200;
          body := BJson (JObject [("value", JNumber (inject_Z 5))]) |}.
Proof.
  assert (Hn : "a" ≠ "") by discriminate.
  assert (H0 : fst (limiterStub_checkRateLimit (ip_of get_value_a)
                      back_after_wait) = 0)
    by (vm_compute; reflexivity).
  destruct (get_value_reads_counter get_value_a "a" back_after_wait
              eq_refl eq_refl Hn H0) as (E1 & _).
  split; [reflexivity |]. split; [reflexivity |]. split; [exact Hn |].
  split; [exact H0 |].
  assert (Hv : fst (getCounterValue "a" back_after_wait) = 5)
    by (vm_compute; reflexivity).
  rewrite E1. by rewrite Hv.
Defined.

(** X17. A counter whose storage has no "value" behaves as one that holds 0:
    [getCounterValue] returns 0 and writes nothing, the first [increment()]
    returns 1 and the first [decrement()] returns -1. *)
Theorem unwritten_counter_is_zero (this : string) (w : World) :
  fst (storage_get this "value" w) = None ->
  getCounterValue this w = (0, w)
  /\ fst (increment this None w) = 1
  /\ fst (decrement this None w) = -1
  /\ fst (storage_get this "value" (snd (increment this None w))) = Some 1.
Proof.
  intros Hnone.
  rewrite getCounterValue_run, increment_run, decrement_run. cbn [fst snd].
  rewrite storage_get_put, Hnone. by cbn.
Qed.

Lemma unwritten_counter_is_zero_witness :
  fst (storage_get "b" "value" burst5) = None
  /\ getCounterValue "b" burst5 = (0, burst5)
  /\ fst (increment "b" None burst5) = 1
  /\ fst (decrement "b" None burst5) = -1
  /\ fst (storage_get "b" "value" (snd (increment "b" None burst5))) = Some 1.
Proof.
  assert (H : fst (storage_get "b" "value" burst5) = None)
    by (vm_compute; reflexivity).
  split; [exact H | apply (unwritten_counter_is_zero "b" burst5 H)].
Defined.

(** ** The two readings of one request *)

(** X18. When the check of a request finds its limiter open
    ([now >= nextAllowedTime]), nothing changes that limiter between the
    check and the record of the request (steps of other requests may run in
    between, as long as they leave it alone), and the clock does not run
    backward between the two calls, the record takes the open branch: the
    hits are reset to 0 and the boundary is 500 ms after the time
    [recordRequest] reads. *)
Theorem open_check_is_recorded_open (id : string) (w w' : World) :
  nextAllowedTime (limiter_of w id) <= clock w (ticks w) ->
  limiter_of w' id = limiter_of w id ->
  clock w (ticks w) <= clock w' (ticks w') ->
  fst (checkRateLimit id w) = 0
  /\ limiter_of (snd (recordRequest id w')) id
     = {| nextAllowedTime := clock w' (ticks w') + 500; consecutiveHits := 0 |}.
Proof.
  intros Hopen Hsame Hfw. split.
  - rewrite checkRateLimit_run. cbn [fst]. case_geb; [done | lia].
  - rewrite recordRequest_run; simpl. rewrite limiter_of_insert.
    unfold recorded, BASE_WAIT_TIME. rewrite Hsame. case_geb; [done | lia].
Qed.

Lemma open_check_is_recorded_open_witness :
  nextAllowedTime (limiter_of back_after_wait "global")
    <= clock back_after_wait (ticks back_after_wait)
  /\ limiter_of checked_then_other "global" = limiter_of back_after_wait "global"
  /\ clock back_after_wait (ticks back_after_wait)
     <= clock checked_then_other (ticks checked_then_other)
  /\ fst (checkRateLimit "global" back_after_wait) = 0
  /\ limiter_of (snd (recordRequest "global" checked_then_other)) "global"
     = {| nextAllowedTime := clock checked_then_other (ticks checked_then_other) + 500;
          consecutiveHits := 0 |}.
Proof.
  assert (H1 : nextAllowedTime (limiter_of back_after_wait "global")
               <= clock back_after_wait (ticks back_after_wait))
    by (vm_compute; intros HH; discriminate HH).
  assert (H2 : limiter_of checked_then_other "global"
               = limiter_of back_after_wait "global")
    by (vm_compute; reflexivity).
  assert (H3 : clock back_after_wait (ticks back_after_wait)
               <= clock checked_then_other (ticks checked_then_other))
    by (vm_compute; intros HH; discriminate HH).
  split; [exact H1 |]. split; [exact H2 |]. split; [exact H3 |].
  apply (open_check_is_recorded_open "global" back_after_wait checked_then_other
           H1 H2 H3).
Defined.

(** X19. The first [GET] or [POST] request of an address is never answered
    with 429: when no limiter exists yet under the name of the request and
    the clock reads a time that is not negative, the check returns 0, and
    the request, served to its end, creates the limiter. *)
Theorem first_request_is_let_through (c : Request) (w : World) :
  method c = GET \/ method c = POST ->
  LIMITER w !! ip_of c = None ->
  0 <= clock w (ticks w) ->
  fst (limiterStub_checkRateLimit (ip_of c) w) = 0
  /\ is_Some (LIMITER (snd (app_fetch c w)) !! ip_of c).
Proof.
  intros _ Hnew Hnow.
  assert (H0 : fst (limiterStub_checkRateLimit (ip_of c) w) = 0).
  { rewrite limiterStub_checkRateLimit_run. cbn [fst].
    unfold limiter_of. rewrite Hnew. cbn. case_geb; [done | lia]. }
  split; [done |].
  rewrite app_fetch_let_through by done.
  match goal with |- context [routes c ?w2] =>
    destruct (routes_frame c w2) as (_ & _ & -> & _) end.
  cbn. rewrite lookup_insert_eq. by eexists.
Qed.

Lemma first_request_is_let_through_witness :
  (method post_decrement_b_from_ip = GET \/ method post_decrement_b_from_ip = POST)
  /\ LIMITER burst5 !! ip_of post_decrement_b_from_ip = None
  /\ 0 <= clock burst5 (ticks burst5)
  /\ fst (limiterStub_checkRateLimit (ip_of post_decrement_b_from_ip) burst5) = 0
  /\ is_Some (LIMITER (snd (app_fetch post_decrement_b_from_ip burst5))
                !! ip_of post_decrement_b_from_ip).
Proof.
  assert (Hm : method post_decrement_b_from_ip = GET
               \/ method post_decrement_b_from_ip = POST)
    by (right; reflexivity).
  assert (H1 : LIMITER burst5 !! ip_of post_decrement_b_from_ip = None)
    by (vm_compute; reflexivity).
  assert (H2 : 0 <= clock burst5 (ticks burst5))
    by (vm_compute; intros HH; discriminate HH).
  split; [exact Hm |]. split; [exact H1 |]. split; [exact H2 |].
  apply (first_request_is_let_through post_decrement_b_from_ip burst5 Hm H1 H2).
Defined.

(** ** Requests in flight *)

Lemma step_AtCheck (c : Request) (w : World) :
  step (AtCheck c) w =
    (if fst (limiterStub_checkRateLimit (ip_of c) w) >? 0 then
       Finished
         (c_json
            (JObject [("error", JString "Rate limit exceeded");
                      ("retryAfter",
                       JNumber (div_1000 (fst (limiterStub_checkRateLimit (ip_of c) w))))])
            (Some 429))
     else AtRecord c,
     snd (limiterStub_checkRateLimit (ip_of c) w)).
Proof.
  unfold step, bind, ret.
  destruct (limiterStub_checkRateLimit (ip_of c) w) as [ms w1]; cbn [fst snd].
  by destruct (ms >? 0).
Qed.

Lemma step_AtRecord (c : Request) (w : World) :
  step (AtRecord c) w = (AtNext c, snd (limiterStub_recordRequest (ip_of c) w)).
Proof.
  unfold step, bind, ret. by destruct (limiterStub_recordRequest (ip_of c) w).
Qed.

Lemma step_AtNext (c : Request) (w : World) :
  step (AtNext c) w = (Finished (fst (routes c w)), snd (routes c w)).
Proof. unfold step, bind, ret. by destruct (routes c w). Qed.

(** The three steps of a request, with nothing between them, are the request
    served alone. *)
Lemma run_alone (c : Request) (w : World) :
  run [0; 0; 0]%nat [AtCheck c] w
  = ([Finished (fst (app_fetch c w))], snd (app_fetch c w)).
Proof.
  unfold run, step_at, bind at 1 2. cbn [lookup list_lookup].
  rewrite step_AtCheck. unfold app_fetch.
  destruct (Z.gtb_spec (fst (limiterStub_checkRateLimit (ip_of c) w)) 0) as [Hpos|Hle].
  - rewrite rateLimit_rejected by lia. reflexivity.
  - rewrite rateLimit_let_through by done.
    unfold ret at 1. cbn [insert list_insert lookup list_lookup].
    unfold bind at 1 2. rewrite step_AtRecord.
    unfold ret at 1. cbn [insert list_insert lookup list_lookup].
    unfold bind at 1 2. rewrite step_AtNext.
    unfold ret. cbn [insert list_insert].
    by destruct (routes c _).
Qed.

Lemma step_other_limiter (s : Stage) (w : World) (id : string) :
  stage_ip s ≠ Some id ->
  limiter_of (snd (step s w)) id = limiter_of w id.
Proof.
  intros Hne. destruct s as [c|c|c|r]; cbn in Hne.
  - rewrite step_AtCheck. cbn [snd]. by rewrite limiterStub_checkRateLimit_run.
  - rewrite step_AtRecord, limiterStub_recordRequest_run. cbn [snd].
    apply limiter_of_insert_ne. congruence.
  - rewrite step_AtNext. cbn [snd].
    destruct (routes_frame c w) as (_ & _ & HL & _).
    unfold limiter_of. by rewrite HL.
  - reflexivity.
Qed.

Lemma step_other_counter (s : Stage) (w : World) (name : string) :
  stage_name s ≠ Some name ->
  COUNTER (snd (step s w)) !! name = COUNTER w !! name.
Proof.
  intros Hne. destruct s as [c|c|c|r]; cbn in Hne.
  - rewrite step_AtCheck. cbn [snd]. by rewrite limiterStub_checkRateLimit_run.
  - rewrite step_AtRecord. by rewrite limiterStub_recordRequest_run.
  - rewrite step_AtNext. cbn [snd]. by apply routes_other_counter.
  - reflexivity.
Qed.

(** C9, as amended. Each call of a request (the check, the record, the
    counter operation of its route) is one step on the state of its key,
    and a request whose three steps run with no other step between them is
    processed as one unit; the check and the record of a request are
    separate steps, and nothing keeps the steps of another request for the
    same key from running between them.  Requests for different keys
    proceed independently: a step changes no limiter but the one of its own
    address and no counter but the one its path names. *)
Theorem steps_touch_their_own_key (s : Stage) (w : World) (id name : string) :
  stage_ip s ≠ Some id ->
  stage_name s ≠ Some name ->
  (forall c w0,
      run [0; 0; 0]%nat [AtCheck c] w0
      = ([Finished (fst (app_fetch c w0))], snd (app_fetch c w0)))
  /\ limiter_of (snd (step s w)) id = limiter_of w id
  /\ COUNTER (snd (step s w)) !! name = COUNTER w !! name.
Proof.
  intros Hip Hname. split; [apply run_alone |].
  split; [by apply step_other_limiter | by apply step_other_counter].
Qed.

Lemma steps_touch_their_own_key_witness :
  stage_ip (AtRecord post_decrement_b_from_ip) ≠ Some "global"
  /\ stage_name (AtRecord post_decrement_b_from_ip) ≠ Some "a"
  /\ limiter_of (snd (step (AtRecord post_decrement_b_from_ip) burst5)) "global"
     = limiter_of burst5 "global"
  /\ COUNTER (snd (step (AtRecord post_decrement_b_from_ip) burst5)) !! "a"
     = COUNTER burst5 !! "a".
Proof.
  assert (H1 : stage_ip (AtRecord post_decrement_b_from_ip) ≠ Some "global")
    by (vm_compute; intros HH; discriminate HH).
  assert (H2 : stage_name (AtRecord post_decrement_b_from_ip) ≠ Some "a")
    by (vm_compute; intros HH; discriminate HH).
  split; [exact H1 |]. split; [exact H2 |].
  apply (steps_touch_their_own_key (AtRecord post_decrement_b_from_ip) burst5
           "global" "a" H1 H2).
Defined.

(** C9, as stated, fails for two requests of one address that arrive after
    the burst of four: served one after the other, in either order, one of
    them is answered with 429 and the limiter counts 4 hits; when they take
    their steps in turn, both checks run before either record, both
    requests are let through and the limiter counts 5 hits. *)
Lemma check_record_pairs_interleave :
  trace_of (run in_turn two_in_flight) burst4
  = [EvCheckRateLimit "global"; EvDateNow 8;
     EvCheckRateLimit "global"; EvDateNow 9;
     EvRecordRequest "global"; EvDateNow 10;
     EvRecordRequest "global"; EvDateNow 11;
     EvIncrement "a"; EvIncrement "a"]
  /\ statuses (fst (run in_turn two_in_flight burst4)) = [Some 200; Some 200]
  /\ limiter_of (snd (run in_turn two_in_flight burst4)) "global"
     = {| nextAllowedTime := 8011; consecutiveHits := 5 |}
  /\ statuses (fst (run first_then_second two_in_flight burst4))
     = [Some 200; Some 429]
  /\ limiter_of (snd (run first_then_second two_in_flight burst4)) "global"
     = {| nextAllowedTime := 4009; consecutiveHits := 4 |}
  /\ statuses (fst (run second_then_first two_in_flight burst4))
     = [Some 429; Some 200]
  /\ limiter_of (snd (run second_then_first two_in_flight burst4)) "global"
     = {| nextAllowedTime := 4009; consecutiveHits := 4 |}
  /\ limiter_of (snd (run in_turn two_in_flight burst4)) "global"
     <> limiter_of (snd (run first_then_second two_in_flight burst4)) "global"
  /\ limiter_of (snd (run in_turn two_in_flight burst4)) "global"
     <> limiter_of (snd (run second_then_first two_in_flight burst4)) "global".
Proof.
  repeat split; try (vm_compute; reflexivity);
    vm_compute; intros HH; discriminate HH.
Qed.
